(** * gmpublisher, [src/app/sounds.js]: named-sound playback

    The module owns one object, [audio], whose five own properties are bound
    to five platform audio elements, and exports [playSound] and [stopSound].
    The development below embeds the module in a small JavaScript-like
    state-and-exception monad over a store of audio elements, and proves the
    properties the specification states about it. *)

From stdpp Require Import gmap strings list fin_maps.

Open Scope string_scope.

(** ** The platform audio subsystem *)

Module Platform.

(** The two states the specification gives an audio clip. *)
Inductive PlayState := Idle | Playing.

#[global] Instance PlayState_eq_dec : EqDecision PlayState.
Proof. solve_decision. Defined.

(** Modelled from the spec: the platform audio element ([Audio] of the host
    browser), which the repository consumes and does not implement.  A clip
    has a resource path, a playing/paused flag and a playback position;
    [broken] records a platform-level defect of the resource (for instance
    a file that fails to decode), which only the platform knows about. *)
Record AudioClip := mkClip {
  src : string;
  flag : PlayState;
  position : N;
  broken : bool
}.

#[global] Instance AudioClip_eq_dec : EqDecision AudioClip.
Proof. solve_decision. Defined.

(** How the promise returned by [play()] settles. *)
Inductive Settlement := Fulfilled | Rejected.

(** Modelled from the spec: [new Audio(path)] creates an idle clip at the
    start of its resource. *)
Definition create (path : string) : AudioClip :=
  {| src := path; flag := Idle; position := 0%N; broken := false |}.

(** Modelled from the spec: [play()] begins or resumes playback from the
    stored position (idle→playing, playing→playing) and hands back a
    promise; a playback failure shows only in how that promise settles. *)
Definition play (c : AudioClip) : AudioClip * Settlement :=
  ({| src := src c; flag := Playing; position := position c;
      broken := broken c |},
   if broken c then Rejected else Fulfilled).

(** Modelled from the spec: [pause()] halts playback and keeps the
    position. *)
Definition pause (c : AudioClip) : AudioClip :=
  {| src := src c; flag := Idle; position := position c;
     broken := broken c |}.

(** Modelled from the spec: assigning to the mutable current-time
    property moves the playback position. *)
Definition set_currentTime (t : N) (c : AudioClip) : AudioClip :=
  {| src := src c; flag := flag c; position := t; broken := broken c |}.

End Platform.

Export Platform.

(** ** Values, completions and the store *)

(** Audio elements are heap objects; a location is an index into the store. *)
Abbreviation loc := nat (only parsing).

(** The values the two functions can meet. *)
Inductive Value :=
  | VUndefined
  | VAudio (l : loc)
  | VBuiltin
  | VPromise (s : Settlement).

(** The only exception class that the module's code can throw. *)
Inductive Exn := TypeError.

Inductive Completion (A : Type) :=
  | Normal (a : A)
  | Throw (e : Exn).
Arguments Normal {A} a.
Arguments Throw {A} e.

(** The module-level state: the own properties of the object bound to the
    constant [audio], and the store of audio elements they refer to. *)
Record World := mkWorld {
  registry : gmap string loc;
  heap : list AudioClip
}.

#[global] Instance World_eq_dec : EqDecision World.
Proof. solve_decision. Defined.

(** A computation may change the store and then either return or throw; what
    it changed before throwing stays changed. *)
Definition JS (A : Type) : Type := World → Completion A * World.

Definition ret {A} (a : A) : JS A := λ w, (Normal a, w).

Definition throw {A} (e : Exn) : JS A := λ w, (Throw e, w).

Definition bind {A B} (c : JS A) (k : A → JS B) : JS B := λ w,
  match c w with
  | (Normal a, w') => k a w'
  | (Throw e, w') => (Throw e, w')
  end.

Declare Scope js_scope.
Delimit Scope js_scope with js.
Notation "'let*' x := c 'in' k" := (bind c (λ x, k))
  (at level 10, x name, c at level 100, k at level 200) : js_scope.
Notation "c1 ;;; c2" := (bind c1 (λ _, c2))
  (at level 100, c2 at level 200, right associativity) : js_scope.
Open Scope js_scope.

Definition completion {A} (c : JS A) (w : World) : Completion A := (c w).1.
Definition exec {A} (c : JS A) (w : World) : World := (c w).2.

(** ** The module [sounds.js] *)

(** Property names every ordinary object inherits from [Object.prototype]:
    [audio[key]] finds them although they are not entries of the table. *)
Definition ObjectPrototype_keys : list string :=
  [ "constructor"; "__defineGetter__"; "__defineSetter__"; "hasOwnProperty";
    "__lookupGetter__"; "__lookupSetter__"; "isPrototypeOf";
    "propertyIsEnumerable"; "toString"; "valueOf"; "__proto__";
    "toLocaleString" ].

(** [new Audio(path)]: a fresh element at the end of the store. *)
Definition new_Audio (path : string) : JS loc := λ w,
  (Normal (length (heap w)),
   {| registry := registry w; heap := heap w ++ [create path] |}).

(** [audio[sound]]: an own property, else an inherited member, else
    [undefined]. *)
Definition audio_get (sound : string) : JS Value := λ w,
  (Normal
     match registry w !! sound with
     | Some l => VAudio l
     | None =>
         if bool_decide (sound ∈ ObjectPrototype_keys) then VBuiltin
         else VUndefined
     end,
   w).

(** Write the element at [l] back to the store; the table is not touched. *)
Definition store (l : loc) (c : AudioClip) (w : World) : World :=
  {| registry := registry w; heap := <[l := c]> (heap w) |}.

(** Read the element a reference points to.  References never dangle in a
    running program; the model makes a dangling one throw, and the module
    invariant below rules it out. *)
Definition with_clip {A} (l : loc) (k : AudioClip → JS A) : JS A := λ w,
  match heap w !! l with
  | Some c => k c w
  | None => (Throw TypeError, w)
  end.

(** [v.play()].  Reading a property of [undefined] throws; an inherited
    member or a promise has no [play], and calling [undefined] throws as
    well.  On an audio element the platform starts playback and the call
    evaluates to the promise. *)
Definition call_play (v : Value) : JS Value :=
  match v with
  | VAudio l =>
      with_clip l (λ c w, (Normal (VPromise (play c).2), store l (play c).1 w))
  | VUndefined | VBuiltin | VPromise _ => throw TypeError
  end.

(** [v.pause()]. *)
Definition call_pause (v : Value) : JS Value :=
  match v with
  | VAudio l =>
      with_clip l (λ c w, (Normal VUndefined, store l (pause c) w))
  | VUndefined | VBuiltin | VPromise _ => throw TypeError
  end.

(** [v.currentTime = t].  On an inherited member or a promise the assignment
    makes an ordinary property of that object and touches no audio
    element. *)
Definition assign_currentTime (v : Value) (t : N) : JS unit :=
  match v with
  | VAudio l =>
      with_clip l (λ c w, (Normal (), store l (set_currentTime t c) w))
  | VBuiltin | VPromise _ => ret ()
  | VUndefined => throw TypeError
  end.

(** [const audio = { 'alert': new Audio('/sound/alert.wav'), ... }]: the
    five elements are created in source order and bound to their names. *)
Definition audio_literal : JS unit :=
  let* alert := new_Audio "/sound/alert.wav" in
  let* success := new_Audio "/sound/success.wav" in
  let* error := new_Audio "/sound/error.wav" in
  let* btn_on := new_Audio "/sound/btn_on.ogg" in
  let* btn_off := new_Audio "/sound/btn_off.ogg" in
  λ w,
    (Normal (),
     {| registry :=
          <["btn-off" := btn_off]>
            (<["btn-on" := btn_on]>
               (<["error" := error]>
                  (<["success" := success]>
                     (<["alert" := alert]> ∅))));
        heap := heap w |}).

(** The world right after the module has been loaded. *)
Definition module_init : World :=
  exec audio_literal {| registry := ∅; heap := [] |}.

(** [export function playSound(sound) { audio[sound].play(); }] *)
Definition playSound (sound : string) : JS unit :=
  let* clip := audio_get sound in
  let* _ := call_play clip in
  ret ().

(** The two statements of [stopSound]. *)
Definition stopSound_pause (sound : string) : JS unit :=
  let* clip := audio_get sound in
  let* _ := call_pause clip in
  ret ().

Definition stopSound_rewind (sound : string) : JS unit :=
  let* clip := audio_get sound in
  assign_currentTime clip 0.

(** [export function stopSound(sound) {
      audio[sound].pause(); audio[sound].currentTime = 0; }] *)
Definition stopSound (sound : string) : JS unit :=
  stopSound_pause sound ;;; stopSound_rewind sound.

(** ** Callers and the module invariant *)

(** The names of the static table. *)
Definition SoundNames : list string :=
  [ "alert"; "success"; "error"; "btn-on"; "btn-off" ].

Definition is_sound_name (name : string) : bool :=
  bool_decide (name ∈ SoundNames).

(** The clip a name is bound to, through the table and the store. *)
Definition clip_of (name : string) (w : World) : option AudioClip :=
  registry w !! name ≫= λ l, heap w !! l.

Definition flag_of (name : string) (w : World) : option PlayState :=
  flag <$> clip_of name w.

Definition position_of (name : string) (w : World) : option N :=
  position <$> clip_of name w.

(** What module initialisation establishes and every call keeps: the keys
    of the table are the five names, each is bound to a live element, and no
    two names share an element.  The state of the elements is left free, as
    the platform advances playing clips on its own. *)
Definition wf_check (w : World) : bool :=
  bool_decide (dom (registry w) = list_to_set SoundNames)
  && bool_decide (map_Forall (λ _ l, l < length (heap w)) (registry w))
  && bool_decide (NoDup (map_to_list (registry w)).*2).

Definition wf (w : World) : Prop := wf_check w = true.

(** A caller's request. *)
Inductive Op := Play | Stop.

Definition call (op : Op) (name : string) : JS unit :=
  match op with
  | Play => playSound name
  | Stop => stopSound name
  end.

(** A caller issuing requests one after the other; an exception thrown by
    one of them reaches the caller, who goes on with the next. *)
Fixpoint run (calls : list (Op * string)) (w : World) : World :=
  match calls with
  | [] => w
  | (op, name) :: rest => run rest (exec (call op name) w)
  end.


(** A world the platform has found a defect in: the resource of the first
    element does not decode. *)
Definition world_with_broken_alert : World :=
  store 0 {| src := "/sound/alert.wav"; flag := Idle; position := 0;
             broken := true |} module_init.

(** A world some time into a playback of "alert": the platform has moved
    the position of the playing clip on. *)
Definition world_alert_mid_playback : World :=
  store 0 {| src := "/sound/alert.wav"; flag := Playing; position := 1500;
             broken := false |} module_init.

(** What the two statements of a successful call leave in the element the
    name is bound to; used to state how calls compose. *)
Definition clip_after (op : Op) (c : AudioClip) : AudioClip :=
  match op with
  | Play => (play c).1
  | Stop => set_currentTime 0 (pause c)
  end.

(** The requests of a sequence that name an entry of the table. *)
Definition registered_calls (calls : list (Op * string))
  : list (Op * string) :=
  List.filter (λ c, is_sound_name c.2) calls.

(** The flag a request asks for. *)
Definition requested_flag (op : Op) : PlayState :=
  match op with
  | Play => Playing
  | Stop => Idle
  end.

(** ** What the specification says, in its own words *)

(** The static configuration table of the specification (name, path). *)
Definition config_table : list (string * string) :=
  [ ("alert", "/sound/alert.wav");
    ("success", "/sound/success.wav");
    ("error", "/sound/error.wav");
    ("btn-on", "/sound/btn_on.ogg");
    ("btn-off", "/sound/btn_off.ogg") ].

(** The transitions of the playing flag that the specification lists. *)
Inductive spec_transition : PlayState → Op → PlayState → Prop :=
  | idle_play : spec_transition Idle Play Playing
  | playing_stop : spec_transition Playing Stop Idle
  | playing_play : spec_transition Playing Play Playing.

(** The transitions the code has: those, and stopping an idle clip. *)
Inductive code_transition : PlayState → Op → PlayState → Prop :=
  | listed s op s' : spec_transition s op s' → code_transition s op s'
  | idle_stop : code_transition Idle Stop Idle.

(** "No call produces a transition outside the listed ones", read on the
    clip the call names. *)
Definition only_listed_transitions : Prop :=
  ∀ (w : World) (op : Op) (name : string) (s s' : PlayState),
    wf w →
    flag_of name w = Some s →
    flag_of name (exec (call op name) w) = Some s' →
    spec_transition s op s'.

(** ** Basic facts: the monad, the store, the invariant *)

Section Invariant.

Variable w : World.
Hypothesis Hwf : wf w.

Lemma wf_dom : dom (registry w) = list_to_set SoundNames.
Proof using Hwf.
  unfold wf, wf_check in Hwf.
  apply andb_true_iff in Hwf as [H _].
  apply andb_true_iff in H as [H _].
  by apply bool_decide_eq_true in H.
Qed.

Lemma wf_live name l :
  registry w !! name = Some l → is_Some (heap w !! l).
Proof using Hwf.
  unfold wf, wf_check in Hwf.
  apply andb_true_iff in Hwf as [H _].
  apply andb_true_iff in H as [_ H].
  apply bool_decide_eq_true in H.
  intros Hl. apply lookup_lt_is_Some. exact (H name l Hl).
Qed.

Lemma wf_distinct n m l :
  registry w !! n = Some l → registry w !! m = Some l → n = m.
Proof using Hwf.
  unfold wf, wf_check in Hwf.
  apply andb_true_iff in Hwf as [_ H].
  apply bool_decide_eq_true in H.
  intros Hn Hm.
  apply elem_of_map_to_list in Hn, Hm.
  assert (Hinj : ∀ (ps : list (string * loc)) p q,
             NoDup ps.*2 → p ∈ ps → q ∈ ps → p.2 = q.2 → p = q).
  { clear. induction ps as [|r ps IH]; intros p q Hnd Hp Hq Heq.
    - by apply elem_of_nil in Hp.
    - rewrite fmap_cons in Hnd. apply NoDup_cons in Hnd as [Hr Hnd].
      apply elem_of_cons in Hp as [->|Hp];
        apply elem_of_cons in Hq as [->|Hq]; auto.
      + exfalso. apply Hr. rewrite Heq. by apply list_elem_of_fmap_2.
      + exfalso. apply Hr. rewrite <- Heq. by apply list_elem_of_fmap_2. }
  pose proof (Hinj _ _ _ H Hn Hm eq_refl) as Hpq.
  congruence.
Qed.

Lemma wf_registered name :
  is_sound_name name = true →
  ∃ l c, registry w !! name = Some l ∧ heap w !! l = Some c.
Proof using Hwf.
  intros Hname. apply bool_decide_eq_true in Hname.
  assert (Hd : name ∈ dom (registry w))
    by (rewrite wf_dom; by apply elem_of_list_to_set).
  apply elem_of_dom in Hd as [l Hl].
  destruct (wf_live name l Hl) as [c Hc]. eauto.
Qed.

Lemma wf_unregistered name :
  is_sound_name name = false → registry w !! name = None.
Proof using Hwf.
  intros Hname. apply bool_decide_eq_false in Hname.
  apply not_elem_of_dom. rewrite wf_dom.
  by rewrite elem_of_list_to_set.
Qed.

End Invariant.

(** The table is not a field any store write reaches. *)
Lemma registry_store l c w : registry (store l c w) = registry w.
Proof. reflexivity. Qed.

Lemma wf_store l c w : wf w → wf (store l c w).
Proof.
  unfold wf, wf_check, store; simpl. by rewrite length_insert.
Qed.

Lemma heap_store_eq l c c0 w :
  heap w !! l = Some c0 → heap (store l c w) !! l = Some c.
Proof.
  intros H. simpl. apply list_lookup_insert_eq.
  by apply lookup_lt_is_Some.
Qed.

Lemma store_store l c c' w : store l c (store l c' w) = store l c w.
Proof. unfold store; simpl. by rewrite list_insert_insert_eq. Qed.

(** What each function does on a bound and on an unbound name. *)
Section Calls.

Variables (w : World) (name : string).

Lemma playSound_bound l c :
  registry w !! name = Some l → heap w !! l = Some c →
  playSound name w = (Normal (), store l (play c).1 w).
Proof.
  intros Hl Hc.
  unfold playSound, bind, audio_get. rewrite Hl. simpl.
  unfold with_clip. by rewrite Hc.
Qed.

Lemma stopSound_pause_bound l c :
  registry w !! name = Some l → heap w !! l = Some c →
  stopSound_pause name w = (Normal (), store l (pause c) w).
Proof.
  intros Hl Hc.
  unfold stopSound_pause, bind, audio_get. rewrite Hl. simpl.
  unfold with_clip. by rewrite Hc.
Qed.

Lemma stopSound_rewind_bound_at w' l c :
  registry w' !! name = Some l → heap w' !! l = Some c →
  stopSound_rewind name w'
  = (Normal (), store l (set_currentTime 0 c) w').
Proof.
  intros Hl Hc.
  unfold stopSound_rewind, bind, audio_get. rewrite Hl. simpl.
  unfold with_clip. by rewrite Hc.
Qed.

Lemma stopSound_bound l c :
  registry w !! name = Some l → heap w !! l = Some c →
  stopSound name w
  = (Normal (), store l (set_currentTime 0 (pause c)) w).
Proof.
  intros Hl Hc. unfold stopSound, bind.
  rewrite (stopSound_pause_bound l c Hl Hc). cbv beta iota.
  rewrite (stopSound_rewind_bound_at (store l (pause c) w) l (pause c)).
  - by rewrite store_store.
  - by rewrite registry_store.
  - by apply (heap_store_eq _ _ c).
Qed.

Lemma audio_get_unbound :
  registry w !! name = None →
  audio_get name w = (Normal VUndefined, w)
  ∨ audio_get name w = (Normal VBuiltin, w).
Proof.
  intros Hl. unfold audio_get. rewrite Hl.
  destruct (bool_decide (name ∈ ObjectPrototype_keys)); auto.
Qed.

Lemma playSound_unbound :
  registry w !! name = None → playSound name w = (Throw TypeError, w).
Proof.
  intros Hl. unfold playSound, bind.
  by destruct (audio_get_unbound Hl) as [-> | ->].
Qed.

Lemma stopSound_pause_unbound :
  registry w !! name = None →
  stopSound_pause name w = (Throw TypeError, w).
Proof.
  intros Hl. unfold stopSound_pause, bind.
  by destruct (audio_get_unbound Hl) as [-> | ->].
Qed.

Lemma stopSound_unbound :
  registry w !! name = None → stopSound name w = (Throw TypeError, w).
Proof.
  intros Hl. unfold stopSound, bind.
  by rewrite (stopSound_pause_unbound Hl).
Qed.

End Calls.

(** Module initialisation establishes the invariant. *)
Lemma wf_module_init : wf module_init.
Proof. reflexivity. Qed.

(** A call leaves the table as it is, whatever the name and the store. *)
Lemma registry_call op name w :
  registry (exec (call op name) w) = registry w.
Proof.
  unfold exec.
  destruct (registry w !! name) as [l|] eqn:Hl.
  - destruct (heap w !! l) as [c|] eqn:Hc.
    + destruct op; simpl.
      * by rewrite (playSound_bound w name l c).
      * by rewrite (stopSound_bound w name l c).
    + destruct op; simpl.
      * unfold playSound, bind, audio_get. rewrite Hl. simpl.
        unfold with_clip. by rewrite Hc.
      * unfold stopSound, stopSound_pause, bind, audio_get. rewrite Hl.
        simpl. unfold with_clip. by rewrite Hc.
  - destruct op; simpl.
    + by rewrite playSound_unbound.
    + by rewrite stopSound_unbound.
Qed.

Lemma wf_call op name w : wf w → wf (exec (call op name) w).
Proof.
  intros Hwf. unfold exec.
  destruct (registry w !! name) as [l|] eqn:Hl.
  - destruct (wf_live w Hwf name l Hl) as [c Hc].
    destruct op; simpl.
    + rewrite (playSound_bound w name l c Hl Hc). by apply wf_store.
    + rewrite (stopSound_bound w name l c Hl Hc). by apply wf_store.
  - destruct op; simpl.
    + by rewrite playSound_unbound.
    + by rewrite stopSound_unbound.
Qed.

Lemma wf_run calls : ∀ w, wf w → wf (run calls w).
Proof.
  induction calls as [|[op name] rest IH]; intros w Hwf; simpl; auto.
  apply IH. by apply wf_call.
Qed.

(** The clip a name is bound to, after a write to the store. *)
Lemma clip_of_store_eq name l c c0 w :
  registry w !! name = Some l → heap w !! l = Some c0 →
  clip_of name (store l c w) = Some c.
Proof.
  intros Hl Hc. unfold clip_of. rewrite registry_store, Hl. simpl.
  apply list_lookup_insert_eq. by apply lookup_lt_is_Some.
Qed.

Lemma clip_of_store_ne name l l' c w :
  registry w !! name = Some l' → l ≠ l' →
  clip_of name (store l c w) = clip_of name w.
Proof.
  intros Hl Hne. unfold clip_of. rewrite registry_store, Hl. simpl.
  by apply list_lookup_insert_ne.
Qed.

(** What a call does to the clip it names and to the others. *)
Section Effects.

Variables (w : World) (N : string) (l : loc) (c : AudioClip).
Hypothesis Hwf : wf w.
Hypothesis Hl : registry w !! N = Some l.
Hypothesis Hc : heap w !! l = Some c.

Lemma clip_after_play :
  clip_of N (exec (playSound N) w) = Some (play c).1.
Proof using Hl Hc.
  unfold exec. rewrite (playSound_bound w N l c Hl Hc). simpl.
  by apply (clip_of_store_eq _ _ _ c).
Qed.

Lemma clip_after_stop :
  clip_of N (exec (stopSound N) w) = Some (set_currentTime 0 (pause c)).
Proof using Hl Hc.
  unfold exec. rewrite (stopSound_bound w N l c Hl Hc). simpl.
  by apply (clip_of_store_eq _ _ _ c).
Qed.

Lemma clip_other_call op M :
  is_sound_name M = true → M ≠ N →
  clip_of M (exec (call op N) w) = clip_of M w.
Proof using Hwf Hl Hc.
  intros HM Hne.
  destruct (wf_registered w Hwf M HM) as (l' & c' & Hl' & Hc').
  assert (l ≠ l') by (intros ->; apply Hne; by eapply wf_distinct).
  unfold exec. destruct op; simpl.
  - rewrite (playSound_bound w N l c Hl Hc). simpl.
    by apply (clip_of_store_ne M l l').
  - rewrite (stopSound_bound w N l c Hl Hc). simpl.
    by apply (clip_of_store_ne M l l').
Qed.

End Effects.

(** ** Unknown names *)

(** C1: for every name outside the five names of the table, [playSound] and
    [stopSound] both complete by throwing (the lookup error of the
    specification is JavaScript's [TypeError]), and the exception is the
    completion of the exported function itself: nothing in the module
    catches it. *)
Theorem unknown_name_throws (w : World) (N : string) :
  wf w → is_sound_name N = false →
  completion (playSound N) w = Throw TypeError
  ∧ completion (stopSound N) w = Throw TypeError.
Proof.
  intros Hwf HN. pose proof (wf_unregistered w Hwf N HN) as Hnone.
  unfold completion.
  by rewrite (playSound_unbound w N Hnone), (stopSound_unbound w N Hnone).
Qed.

Lemma unknown_name_throws_witness :
  completion (playSound "toString") module_init = Throw TypeError
  ∧ completion (stopSound "toString") module_init = Throw TypeError.
Proof.
  apply (unknown_name_throws module_init "toString"); reflexivity.
Defined.

(** C6: [playSound] with an unregistered name throws and leaves the whole
    world, hence every clip's flag and position, exactly as it was. *)
Theorem playSound_unknown_atomic (w : World) (N M : string) :
  wf w → is_sound_name N = false →
  playSound N w = (Throw TypeError, w)
  ∧ flag_of M (exec (playSound N) w) = flag_of M w
  ∧ position_of M (exec (playSound N) w) = position_of M w.
Proof.
  intros Hwf HN. pose proof (wf_unregistered w Hwf N HN) as Hnone.
  unfold exec. by rewrite (playSound_unbound w N Hnone).
Qed.

Lemma playSound_unknown_atomic_witness :
  playSound "missing-name" world_alert_mid_playback
  = (Throw TypeError, world_alert_mid_playback)
  ∧ flag_of "alert" (exec (playSound "missing-name") world_alert_mid_playback)
    = flag_of "alert" world_alert_mid_playback
  ∧ position_of "alert"
      (exec (playSound "missing-name") world_alert_mid_playback)
    = position_of "alert" world_alert_mid_playback.
Proof.
  apply (playSound_unknown_atomic world_alert_mid_playback
           "missing-name" "alert"); reflexivity.
Defined.

(** C10: [stopSound] with an unregistered name already throws in its first
    statement, the [pause()] call, so the assignment to [currentTime] is
    never reached; the whole world (table, flags and positions) is exactly
    as it was. *)
Theorem stopSound_unknown_atomic (w : World) (N : string) :
  wf w → is_sound_name N = false →
  stopSound_pause N w = (Throw TypeError, w)
  ∧ stopSound N w = (Throw TypeError, w).
Proof.
  intros Hwf HN. pose proof (wf_unregistered w Hwf N HN) as Hnone.
  by rewrite (stopSound_pause_unbound w N Hnone),
             (stopSound_unbound w N Hnone).
Qed.

Lemma stopSound_unknown_atomic_witness :
  stopSound_pause "missing-name" world_with_broken_alert
  = (Throw TypeError, world_with_broken_alert)
  ∧ stopSound "missing-name" world_with_broken_alert
    = (Throw TypeError, world_with_broken_alert).
Proof.
  apply (stopSound_unknown_atomic world_with_broken_alert "missing-name");
    reflexivity.
Defined.

(** ** Known names *)

(** C2: for every valid name, [stopSound] leaves the clip bound to it idle
    at position zero, a play issued next starts from position zero, and
    a play followed by a stop leaves the clip idle at position zero. *)
Theorem stopSound_halts_and_rewinds (w : World) (N : string) :
  wf w → is_sound_name N = true →
  flag_of N (exec (stopSound N) w) = Some Idle
  ∧ position_of N (exec (stopSound N) w) = Some 0%N
  ∧ flag_of N (exec (playSound N) (exec (stopSound N) w)) = Some Playing
  ∧ position_of N (exec (playSound N) (exec (stopSound N) w)) = Some 0%N
  ∧ flag_of N (exec (stopSound N) (exec (playSound N) w)) = Some Idle
  ∧ position_of N (exec (stopSound N) (exec (playSound N) w)) = Some 0%N.
Proof.
  intros Hwf HN.
  destruct (wf_registered w Hwf N HN) as (l & c & Hl & Hc).
  pose proof (clip_after_stop w N l c Hl Hc) as Hstop.
  pose proof (clip_after_play w N l c Hl Hc) as Hplay.
  assert (Hstop_play :
    clip_of N (exec (playSound N) (exec (stopSound N) w))
    = Some (play (set_currentTime 0 (pause c))).1).
  { unfold exec at 2. rewrite (stopSound_bound w N l c Hl Hc). cbn [snd].
    apply (clip_after_play _ N l).
    - by rewrite registry_store.
    - by apply (heap_store_eq _ _ c). }
  assert (Hplay_stop :
    clip_of N (exec (stopSound N) (exec (playSound N) w))
    = Some (set_currentTime 0 (pause (play c).1))).
  { unfold exec at 2. rewrite (playSound_bound w N l c Hl Hc). cbn [snd].
    apply (clip_after_stop _ N l).
    - by rewrite registry_store.
    - by apply (heap_store_eq _ _ c). }
  unfold flag_of, position_of.
  by rewrite Hstop, Hstop_play, Hplay_stop.
Qed.

Lemma stopSound_halts_and_rewinds_witness :
  flag_of "alert" (exec (stopSound "alert") world_alert_mid_playback)
  = Some Idle
  ∧ position_of "alert" (exec (stopSound "alert") world_alert_mid_playback)
    = Some 0%N
  ∧ flag_of "alert"
      (exec (playSound "alert")
         (exec (stopSound "alert") world_alert_mid_playback))
    = Some Playing
  ∧ position_of "alert"
      (exec (playSound "alert")
         (exec (stopSound "alert") world_alert_mid_playback))
    = Some 0%N
  ∧ flag_of "alert"
      (exec (stopSound "alert")
         (exec (playSound "alert") world_alert_mid_playback))
    = Some Idle
  ∧ position_of "alert"
      (exec (stopSound "alert")
         (exec (playSound "alert") world_alert_mid_playback))
    = Some 0%N.
Proof.
  apply (stopSound_halts_and_rewinds world_alert_mid_playback "alert");
    reflexivity.
Defined.

(** C3: for every valid name and whatever state its clip is in,
    [stopSound] returns normally, leaves the clip idle at position zero,
    and a second [stopSound] right after it returns normally too and
    changes nothing. *)
Theorem stopSound_total_idempotent (w : World) (N : string) :
  wf w → is_sound_name N = true →
  completion (stopSound N) w = Normal ()
  ∧ completion (stopSound N) (exec (stopSound N) w) = Normal ()
  ∧ exec (stopSound N) (exec (stopSound N) w) = exec (stopSound N) w
  ∧ flag_of N (exec (stopSound N) w) = Some Idle
  ∧ position_of N (exec (stopSound N) w) = Some 0%N.
Proof.
  intros Hwf HN.
  destruct (wf_registered w Hwf N HN) as (l & c & Hl & Hc).
  pose proof (clip_after_stop w N l c Hl Hc) as Hclip.
  unfold completion, flag_of, position_of. rewrite Hclip.
  unfold exec. rewrite (stopSound_bound w N l c Hl Hc). simpl.
  rewrite (stopSound_bound _ N l (set_currentTime 0 (pause c))).
  - simpl. by rewrite store_store.
  - by rewrite registry_store.
  - by apply (heap_store_eq _ _ c).
Qed.

Lemma stopSound_total_idempotent_witness :
  completion (stopSound "success") module_init = Normal ()
  ∧ completion (stopSound "success")
      (exec (stopSound "success") module_init) = Normal ()
  ∧ exec (stopSound "success") (exec (stopSound "success") module_init)
    = exec (stopSound "success") module_init
  ∧ flag_of "success" (exec (stopSound "success") module_init) = Some Idle
  ∧ position_of "success" (exec (stopSound "success") module_init)
    = Some 0%N.
Proof.
  apply (stopSound_total_idempotent module_init "success"); reflexivity.
Defined.

(** C4: for every valid name [playSound] returns normally.  The play
    command it issues evaluates to a promise, rejected when the platform
    finds the resource defective; [playSound] drops that value, so the
    failure is never its completion. *)
Theorem playSound_total (w : World) (N : string) :
  wf w → is_sound_name N = true →
  completion (playSound N) w = Normal ()
  ∧ ∃ l c, registry w !! N = Some l ∧ heap w !! l = Some c
           ∧ completion (call_play (VAudio l)) w
             = Normal (VPromise (if broken c then Rejected else Fulfilled)).
Proof.
  intros Hwf HN.
  destruct (wf_registered w Hwf N HN) as (l & c & Hl & Hc).
  split.
  - unfold completion. by rewrite (playSound_bound w N l c Hl Hc).
  - exists l, c. repeat split; auto.
    unfold completion, call_play, with_clip. by rewrite Hc.
Qed.

Lemma playSound_total_witness :
  completion (playSound "alert") world_with_broken_alert = Normal ()
  ∧ ∃ l c, registry world_with_broken_alert !! "alert" = Some l
           ∧ heap world_with_broken_alert !! l = Some c
           ∧ completion (call_play (VAudio l)) world_with_broken_alert
             = Normal (VPromise (if broken c then Rejected else Fulfilled)).
Proof.
  apply (playSound_total world_with_broken_alert "alert"); reflexivity.
Defined.

(** C9: for a valid name, a play or a stop writes to the clip bound to that
    name only: the clip bound to any other name of the table keeps its
    flag and its position. *)
Theorem call_frame (w : World) (op : Op) (N M : string) :
  wf w → is_sound_name N = true → is_sound_name M = true → M ≠ N →
  flag_of M (exec (call op N) w) = flag_of M w
  ∧ position_of M (exec (call op N) w) = position_of M w.
Proof.
  intros Hwf HN HM Hne.
  destruct (wf_registered w Hwf N HN) as (l & c & Hl & Hc).
  unfold flag_of, position_of.
  by rewrite (clip_other_call w N l c Hwf Hl Hc op M HM Hne).
Qed.

Lemma call_frame_witness :
  flag_of "error"
    (exec (call Stop "btn-off") (run [(Play, "error")] module_init))
  = flag_of "error" (run [(Play, "error")] module_init)
  ∧ position_of "error"
      (exec (call Stop "btn-off") (run [(Play, "error")] module_init))
    = position_of "error" (run [(Play, "error")] module_init).
Proof.
  apply (call_frame (run [(Play, "error")] module_init) Stop "btn-off" "error");
    [reflexivity | reflexivity | reflexivity | discriminate].
Defined.

(** ** The table *)

(** C5: no call, with any name and in any world, adds, removes or rebinds
    an entry of the table, so after every sequence of calls the table, and
    with it the key set, is the one module initialisation built. *)
Theorem registry_immutable
  (w : World) (op : Op) (name : string) (calls : list (Op * string)) :
  registry (exec (call op name) w) = registry w
  ∧ registry (run calls w) = registry w
  ∧ registry (run calls module_init) = registry module_init
  ∧ dom (registry (run calls module_init)) = list_to_set SoundNames.
Proof.
  assert (Hrun : ∀ cs w0, registry (run cs w0) = registry w0).
  { induction cs as [|[o n] rest IH]; intros w0; simpl; auto.
    by rewrite IH, registry_call. }
  rewrite !Hrun. repeat split; auto using registry_call.
Qed.

Lemma registry_module_init :
  registry module_init
  = <["btn-off" := 4]> (<["btn-on" := 3]> (<["error" := 2]>
      (<["success" := 1]> (<["alert" := 0]> ∅)))).
Proof. reflexivity. Qed.

Lemma heap_module_init :
  heap module_init
  = [ create "/sound/alert.wav"; create "/sound/success.wav";
      create "/sound/error.wav"; create "/sound/btn_on.ogg";
      create "/sound/btn_off.ogg" ].
Proof. reflexivity. Qed.

(** C7: after initialisation the table binds exactly the names of the
    static configuration table, each to a clip of the path given there,
    and binds no other name. *)
Theorem registry_initial_table :
  dom (registry module_init) = list_to_set config_table.*1
  ∧ ∀ name path,
      (∃ l c, registry module_init !! name = Some l
              ∧ heap module_init !! l = Some c ∧ src c = path)
      ↔ (name, path) ∈ config_table.
Proof.
  split; [reflexivity|].
  intros name path. rewrite registry_module_init, heap_module_init.
  unfold config_table. split.
  - intros (l & c & Hl & Hc & Hsrc).
    repeat (apply lookup_insert_Some in Hl as [[<- <-]|[_ Hl]];
            [simpl in Hc; injection Hc as <-; subst path; set_solver|]).
    by rewrite lookup_empty in Hl.
  - intros Hin.
    repeat (apply elem_of_cons in Hin as [[= -> ->]|Hin];
            [eexists _, _; repeat split; reflexivity|]).
    by apply elem_of_nil in Hin.
Qed.

(** ** The playing flag *)

Lemma bound_is_sound_name w name l :
  wf w → registry w !! name = Some l → is_sound_name name = true.
Proof.
  intros Hwf Hl. apply bool_decide_eq_true.
  apply (elem_of_list_to_set (C := gset string)).
  rewrite <- (wf_dom w Hwf). apply elem_of_dom. eauto.
Qed.

Lemma flag_of_Some name w s :
  flag_of name w = Some s →
  ∃ l c, registry w !! name = Some l ∧ heap w !! l = Some c ∧ flag c = s.
Proof.
  unfold flag_of, clip_of. intros H.
  destruct (registry w !! name) as [l|] eqn:Hl; [|done]. simpl in H.
  destruct (heap w !! l) as [c|] eqn:Hc; [|done]. simpl in H.
  injection H as <-. by exists l, c.
Qed.

(** One call, seen from one clip: the named clip moves along a transition
    of the code, every other clip keeps its flag. *)
Lemma flag_step w op N M s s' :
  wf w →
  flag_of M w = Some s →
  flag_of M (exec (call op N) w) = Some s' →
  (M = N ∧ code_transition s op s') ∨ (M ≠ N ∧ s' = s).
Proof.
  intros Hwf Hs Hs'.
  destruct (decide (M = N)) as [->|Hne]; [left | right]; split; auto.
  - destruct (flag_of_Some _ _ _ Hs) as (l & c & Hl & Hc & Hflag).
    unfold flag_of in Hs'. destruct op; simpl in Hs'.
    + rewrite (clip_after_play w N l c Hl Hc) in Hs'.
      injection Hs' as <-. subst s.
      simpl. destruct (flag c);
        first [apply idle_stop | apply listed; constructor].
    + rewrite (clip_after_stop w N l c Hl Hc) in Hs'.
      injection Hs' as <-. subst s.
      simpl. destruct (flag c);
        first [apply idle_stop | apply listed; constructor].
  - destruct (flag_of_Some _ _ _ Hs) as (l' & c' & Hl' & Hc' & Hflag).
    pose proof (bound_is_sound_name w M l' Hwf Hl') as HM.
    assert (Hsame : clip_of M (exec (call op N) w) = clip_of M w).
    { destruct (registry w !! N) as [l|] eqn:Hl.
      - destruct (wf_live w Hwf N l Hl) as [c Hc].
        by apply (clip_other_call w N l c).
      - unfold exec. destruct op; simpl.
        + by rewrite playSound_unbound.
        + by rewrite stopSound_unbound. }
    unfold flag_of in Hs, Hs'. rewrite Hsame in Hs'. congruence.
Qed.

(** C8, as the code has it: along every sequence of calls the flag of the
    clip a call names moves only by idle→playing (play), playing→idle
    (stop), playing→playing (play) or idle→idle (stop of an idle clip), and
    the flag of every other clip stays; and two plays of "btn-on" in
    succession both return normally and leave that clip playing. *)
Theorem flag_transitions
  (w : World) (calls : list (Op * string)) (op : Op) (N M : string)
  (s s' : PlayState) :
  wf w →
  flag_of M (run calls w) = Some s →
  flag_of M (exec (call op N) (run calls w)) = Some s' →
  ((M = N ∧ code_transition s op s') ∨ (M ≠ N ∧ s' = s))
  ∧ completion (playSound "btn-on") (run calls w) = Normal ()
  ∧ completion (playSound "btn-on")
      (exec (playSound "btn-on") (run calls w)) = Normal ()
  ∧ flag_of "btn-on"
      (exec (playSound "btn-on") (exec (playSound "btn-on") (run calls w)))
    = Some Playing.
Proof.
  intros Hwf Hs Hs'.
  pose proof (wf_run calls w Hwf) as Hwf1.
  split; [by apply (flag_step (run calls w))|].
  set (w1 := run calls w) in *.
  destruct (wf_registered w1 Hwf1 "btn-on" eq_refl) as (l & c & Hl & Hc).
  pose proof (playSound_bound w1 "btn-on" l c Hl Hc) as Hplay.
  assert (Hl2 : registry (store l (play c).1 w1) !! "btn-on" = Some l)
    by by rewrite registry_store.
  pose proof (heap_store_eq l (play c).1 c w1 Hc) as Hc2.
  pose proof (playSound_bound _ "btn-on" l _ Hl2 Hc2) as Hplay2.
  unfold completion, exec. rewrite Hplay. cbn [fst snd]. rewrite Hplay2.
  repeat split.
  unfold flag_of. cbn [snd].
  by rewrite (clip_of_store_eq "btn-on" l _ (play c).1 _ Hl2 Hc2).
Qed.

Lemma flag_transitions_witness :
  (("btn-on" = "btn-on" ∧ code_transition Playing Play Playing)
   ∨ ("btn-on" ≠ "btn-on" ∧ Playing = Playing))
  ∧ completion (playSound "btn-on") (run [(Play, "btn-on")] module_init)
    = Normal ()
  ∧ completion (playSound "btn-on")
      (exec (playSound "btn-on") (run [(Play, "btn-on")] module_init))
    = Normal ()
  ∧ flag_of "btn-on"
      (exec (playSound "btn-on")
         (exec (playSound "btn-on") (run [(Play, "btn-on")] module_init)))
    = Some Playing.
Proof.
  apply (flag_transitions module_init [(Play, "btn-on")] Play
           "btn-on" "btn-on" Playing Playing); reflexivity.
Defined.

(** C8, as the specification words it, fails: stopping the never-played
    "success" clip takes its flag from idle to idle by a stop, which is none
    of the three listed transitions. *)
Lemma stop_of_idle_clip_is_unlisted :
  wf module_init
  ∧ flag_of "success" module_init = Some Idle
  ∧ flag_of "success" (exec (call Stop "success") module_init) = Some Idle
  ∧ ¬ spec_transition Idle Stop Idle
  ∧ ¬ only_listed_transitions.
Proof.
  assert (Hno : ¬ spec_transition Idle Stop Idle) by (intros H; inversion H).
  repeat split; auto.
  intros H. apply Hno.
  exact (H module_init Stop "success" Idle Idle eq_refl eq_refl eq_refl).
Qed.


(** ** Sequences of calls *)

(** The three ways a call can go, in any world: on a name bound to a live
    element it returns and writes that element; on an unbound name, or on a
    reference to no element, it throws and writes nothing. *)
Lemma call_bound op name w l c :
  registry w !! name = Some l → heap w !! l = Some c →
  call op name w = (Normal (), store l (clip_after op c) w).
Proof.
  intros Hl Hc. destruct op; simpl.
  - by apply playSound_bound.
  - by apply stopSound_bound.
Qed.

Lemma call_unbound op name w :
  registry w !! name = None → call op name w = (Throw TypeError, w).
Proof.
  intros Hl. destruct op; simpl.
  - by apply playSound_unbound.
  - by apply stopSound_unbound.
Qed.

Lemma call_dangling op name w l :
  registry w !! name = Some l → heap w !! l = None →
  call op name w = (Throw TypeError, w).
Proof.
  intros Hl Hc. destruct op; simpl.
  - unfold playSound, bind, audio_get. rewrite Hl. simpl.
    unfold with_clip. by rewrite Hc.
  - unfold stopSound, stopSound_pause, bind, audio_get. rewrite Hl. simpl.
    unfold with_clip. by rewrite Hc.
Qed.

Lemma call_cases op name w :
  (∃ l c, registry w !! name = Some l ∧ heap w !! l = Some c
          ∧ call op name w = (Normal (), store l (clip_after op c) w))
  ∨ call op name w = (Throw TypeError, w).
Proof.
  destruct (registry w !! name) as [l|] eqn:Hl.
  - destruct (heap w !! l) as [c|] eqn:Hc.
    + left. exists l, c. auto using call_bound.
    + right. by apply (call_dangling op name w l).
  - right. by apply call_unbound.
Qed.

Lemma run_app calls1 calls2 : ∀ w,
  run (calls1 ++ calls2) w = run calls2 (run calls1 w).
Proof.
  induction calls1 as [|[op name] rest IH]; intros w; simpl; auto.
Qed.

Lemma registry_run calls : ∀ w, registry (run calls w) = registry w.
Proof.
  induction calls as [|[op name] rest IH]; intros w; simpl; auto.
  by rewrite IH, registry_call.
Qed.

(** A call that does not name [M] leaves the clip of [M] as it is. *)
Lemma clip_of_call_other w op N M :
  wf w → N ≠ M → clip_of M (exec (call op N) w) = clip_of M w.
Proof.
  intros Hwf Hne.
  destruct (call_cases op N w) as [(l & c & Hl & Hc & Hcall)|Hcall];
    unfold exec; rewrite Hcall; cbn [snd]; [|done].
  destruct (registry w !! M) as [l'|] eqn:Hl'.
  - apply (clip_of_store_ne M l l'); auto.
    intros ->. apply Hne. by apply (wf_distinct w Hwf N M l').
  - unfold clip_of. by rewrite registry_store, Hl'.
Qed.

Lemma clip_of_run_other M calls : ∀ w,
  wf w → Forall (λ c, c.2 ≠ M) calls →
  clip_of M (run calls w) = clip_of M w.
Proof.
  induction calls as [|[op name] rest IH]; intros w Hwf Hall; simpl; auto.
  apply Forall_cons in Hall as [Hne Hrest]. simpl in Hne.
  rewrite IH by auto using wf_call.
  by apply clip_of_call_other.
Qed.

(** X1: from module initialisation on, whatever calls were made before
    (with registered or unregistered names), a call throws exactly when
    its name is not one of the five names of the table, and returns
    normally otherwise. *)
Theorem call_outcome_after_any_history
  (calls : list (Op * string)) (op : Op) (N : string) :
  completion (call op N) (run calls module_init)
  = if is_sound_name N then Normal () else Throw TypeError.
Proof.
  pose proof (wf_run calls module_init wf_module_init) as Hwf.
  unfold completion.
  destruct (is_sound_name N) eqn:HN.
  - destruct (wf_registered _ Hwf N HN) as (l & c & Hl & Hc).
    by rewrite (call_bound op N _ l c Hl Hc).
  - by rewrite (call_unbound op N _ (wf_unregistered _ Hwf N HN)).
Qed.

(** X2: in every world, with or without the module invariant, a call that
    throws has written nothing: the world after it is the world before
    it.  In particular [stopSound] never pauses a clip and then fails on
    the assignment. *)
Theorem throwing_call_changes_nothing
  (w : World) (op : Op) (N : string) (e : Exn) :
  completion (call op N) w = Throw e → exec (call op N) w = w.
Proof.
  unfold completion, exec. intros Hthrow.
  destruct (call_cases op N w) as [(l & c & _ & _ & Hcall)|Hcall];
    rewrite Hcall in *; [discriminate | done].
Qed.

Lemma throwing_call_changes_nothing_witness :
  exec (call Stop "btn_on") world_alert_mid_playback
  = world_alert_mid_playback.
Proof.
  apply (throwing_call_changes_nothing world_alert_mid_playback Stop
           "btn_on" TypeError); reflexivity.
Defined.

(** X3: a sequence of calls none of which names [M] leaves the clip bound
    to [M] with the flag and the position it had, whether or not the calls
    of the sequence succeed. *)
Theorem sequence_frame
  (w : World) (calls : list (Op * string)) (M : string) :
  wf w → Forall (λ c, c.2 ≠ M) calls →
  flag_of M (run calls w) = flag_of M w
  ∧ position_of M (run calls w) = position_of M w.
Proof.
  intros Hwf Hall. unfold flag_of, position_of.
  by rewrite (clip_of_run_other M calls w Hwf Hall).
Qed.

Lemma sequence_frame_witness :
  flag_of "alert"
    (run [(Stop, "error"); (Play, "nope"); (Play, "btn-on")]
       world_alert_mid_playback)
  = flag_of "alert" world_alert_mid_playback
  ∧ position_of "alert"
      (run [(Stop, "error"); (Play, "nope"); (Play, "btn-on")]
         world_alert_mid_playback)
    = position_of "alert" world_alert_mid_playback.
Proof.
  apply (sequence_frame world_alert_mid_playback
           [(Stop, "error"); (Play, "nope"); (Play, "btn-on")] "alert");
    [reflexivity | repeat constructor; discriminate].
Defined.

(** X4: the last call that names a registered clip decides its flag: after
    any calls, then a call on [N], then any calls that do not name [N],
    the clip of [N] is playing if that call was a play and idle if it was
    a stop, and after a stop its position is zero. *)
Theorem last_call_wins
  (w : World) (before after : list (Op * string)) (op : Op) (N : string) :
  wf w → is_sound_name N = true → Forall (λ c, c.2 ≠ N) after →
  flag_of N (run (before ++ (op, N) :: after) w) = Some (requested_flag op)
  ∧ (op = Stop →
     position_of N (run (before ++ (op, N) :: after) w) = Some 0%N).
Proof.
  intros Hwf HN Hafter.
  rewrite run_app. simpl.
  pose proof (wf_run before w Hwf) as Hwf1.
  set (w1 := run before w) in *.
  unfold flag_of, position_of.
  rewrite (clip_of_run_other N after _ (wf_call op N w1 Hwf1) Hafter).
  destruct (wf_registered w1 Hwf1 N HN) as (l & c & Hl & Hc).
  unfold exec. rewrite (call_bound op N w1 l c Hl Hc). cbn [snd].
  rewrite (clip_of_store_eq N l _ c w1 Hl Hc).
  split; [by destruct op | by intros ->].
Qed.

Lemma last_call_wins_witness :
  flag_of "alert"
    (run ([(Stop, "alert"); (Play, "error")]
          ++ (Stop, "alert") :: [(Play, "btn-off"); (Stop, "nope")])
       world_alert_mid_playback)
  = Some (requested_flag Stop)
  ∧ (Stop = Stop →
     position_of "alert"
       (run ([(Stop, "alert"); (Play, "error")]
             ++ (Stop, "alert") :: [(Play, "btn-off"); (Stop, "nope")])
          world_alert_mid_playback)
     = Some 0%N).
Proof.
  apply (last_call_wins world_alert_mid_playback
           [(Stop, "alert"); (Play, "error")]
           [(Play, "btn-off"); (Stop, "nope")] Stop "alert");
    [reflexivity | reflexivity | repeat constructor; discriminate].
Defined.

(** X5: calls on two different names commute: made in either order they
    leave the same world, whether the names are registered or not. *)
Theorem calls_on_different_names_commute
  (w : World) (op1 op2 : Op) (N M : string) :
  wf w → N ≠ M →
  exec (call op1 N) (exec (call op2 M) w)
  = exec (call op2 M) (exec (call op1 N) w).
Proof.
  intros Hwf Hne.
  assert (Hskip : ∀ op name op' name' w0,
             registry w0 !! name = None →
             exec (call op name) (exec (call op' name') w0)
             = exec (call op' name') (exec (call op name) w0)).
  { intros op name op' name' w0 Hnone.
    unfold exec at 1 4.
    rewrite (call_unbound op name w0 Hnone),
            (call_unbound op name (exec (call op' name') w0)); [done|].
    by rewrite registry_call. }
  destruct (registry w !! N) as [l|] eqn:Hl; [|by apply Hskip].
  destruct (registry w !! M) as [l'|] eqn:Hl';
    [|symmetry; by apply Hskip].
  destruct (wf_live w Hwf N l Hl) as [c Hc].
  destruct (wf_live w Hwf M l' Hl') as [c' Hc'].
  assert (Hll : l ≠ l').
  { intros ->. apply Hne. by apply (wf_distinct w Hwf N M l'). }
  unfold exec.
  rewrite (call_bound op1 N w l c Hl Hc), (call_bound op2 M w l' c' Hl' Hc').
  cbn [snd].
  rewrite (call_bound op1 N (store l' _ w) l c),
          (call_bound op2 M (store l _ w) l' c'); cbn [snd].
  - unfold store; simpl. f_equal. by apply list_insert_insert_ne.
  - by rewrite registry_store.
  - simpl. by rewrite list_lookup_insert_ne.
  - by rewrite registry_store.
  - simpl. by rewrite list_lookup_insert_ne.
Qed.

Lemma calls_on_different_names_commute_witness :
  exec (call Stop "alert")
    (exec (call Play "success") world_alert_mid_playback)
  = exec (call Play "success")
      (exec (call Stop "alert") world_alert_mid_playback).
Proof.
  apply (calls_on_different_names_commute world_alert_mid_playback
           Stop Play "alert" "success"); [reflexivity | discriminate].
Defined.

(** X6: calls with unregistered names leave no trace: removing them from
    a sequence of calls does not change the world the sequence ends in. *)
Theorem unregistered_calls_can_be_dropped
  (w : World) (calls : list (Op * string)) :
  wf w → run calls w = run (registered_calls calls) w.
Proof.
  revert w. induction calls as [|[op name] rest IH]; intros w Hwf; auto.
  unfold registered_calls in *. simpl.
  destruct (is_sound_name name) eqn:Hname; simpl.
  - apply IH. by apply wf_call.
  - unfold exec at 1.
    rewrite (call_unbound op name w (wf_unregistered w Hwf name Hname)).
    by apply IH.
Qed.

Lemma unregistered_calls_can_be_dropped_witness :
  run [(Play, "alert"); (Stop, "toString"); (Play, "btn_on");
       (Stop, "alert"); (Play, "error")] module_init
  = run (registered_calls
           [(Play, "alert"); (Stop, "toString"); (Play, "btn_on");
            (Stop, "alert"); (Play, "error")]) module_init.
Proof.
  apply (unregistered_calls_can_be_dropped module_init
           [(Play, "alert"); (Stop, "toString"); (Play, "btn_on");
            (Stop, "alert"); (Play, "error")]); reflexivity.
Defined.

(** X7: in every world, no sequence of calls creates or discards an audio
    element, and none changes the resource path of an element: the store
    keeps its size and every element its [src]. *)
Theorem calls_neither_allocate_nor_retarget
  (w : World) (calls : list (Op * string)) (l : loc) :
  length (heap (run calls w)) = length (heap w)
  ∧ src <$> heap (run calls w) !! l = src <$> heap w !! l.
Proof.
  revert w. induction calls as [|[op name] rest IH]; intros w; auto.
  simpl. destruct (IH (exec (call op name) w)) as [-> ->].
  unfold exec.
  destruct (call_cases op name w) as [(l0 & c & _ & Hc & Hcall)|Hcall];
    rewrite Hcall; cbn [snd]; [|done].
  unfold store; simpl. rewrite length_insert. split; [done|].
  destruct (decide (l0 = l)) as [->|Hne].
  - rewrite list_lookup_insert_eq by (by apply lookup_lt_is_Some).
    rewrite Hc. by destruct op.
  - by rewrite list_lookup_insert_ne.
Qed.

(** X8: in every world, a stop absorbs the call made on the same name just
    before it: a play or a stop followed by a stop of the same name ends
    in exactly the world the stop alone ends in. *)
Theorem stop_absorbs_previous_call (w : World) (op : Op) (N : string) :
  exec (stopSound N) (exec (call op N) w) = exec (stopSound N) w.
Proof.
  unfold exec at 2.
  destruct (call_cases op N w) as [(l & c & Hl & Hc & Hcall)|Hcall];
    rewrite Hcall; cbn [snd]; [|done].
  unfold exec.
  rewrite (stopSound_bound w N l c Hl Hc).
  rewrite (stopSound_bound (store l (clip_after op c) w) N l
             (clip_after op c)).
  - cbn [snd]. rewrite store_store. by destruct op.
  - by rewrite registry_store.
  - by apply (heap_store_eq _ _ c).
Qed.
